(** * Wwise_IDs.h: the generated identifier table of the sound banks

    A shallow embedding of
    [Assets/StreamingAssets/Audio/GeneratedSoundBanks/Wwise_IDs.h].
    The header holds no function: it is a tree of namespaces whose leaves
    are [static const AkUniqueID NAME = <literal>U;] declarations.  The
    embedding keeps that tree, the qualified-name lookup a consumer performs
    on it, and the read-only access a [static const] object admits. *)

From Stdlib Require Import Ascii.
From stdpp Require Import base numbers list strings gmap.

Local Open Scope string_scope.
Local Open Scope Z_scope.
Local Open Scope list_scope.

(** ** The declarations of the header *)

(** One line [static <const?> <ty> <name> = <lit>U;]: whether the
    declaration carries the [const] qualifier, the declared type, the name
    and the initialiser.  The literal is kept as the integer that is
    written in the header, before any conversion to the declared type. *)
Record constant :=
  Object { c_const : bool; c_ty : string; c_name : string; c_lit : Z }.

(** A declaration that is qualified [const], as every line of the header
    is. *)
Definition Const (ty n : string) (v : Z) : constant := Object true ty n v.

Global Instance constant_eq_dec : EqDecision constant.
Proof. solve_decision. Defined.

(** A declaration is the definition of an object at namespace scope, with
    its qualifier in the record, or a namespace block. *)
#[warnings="-register-all"]
Inductive decl :=
| StaticConst (c : constant)
| Namespace (n : string) (body : list decl).

(** Every constant of the header has this declared type. *)
Definition AkUniqueID_name : string := "AkUniqueID".

(** The line [static const AkUniqueID n = vU;]. *)
Definition static_const (n : string) (v : Z) : decl :=
  StaticConst (Const AkUniqueID_name n v).

Module AK.

Definition EVENTS : list decl :=
  [ static_const "BGM_RANDOMLOOPING" 3963821017;
    static_const "BGM_RANDOMLOOPING_STOP" 2370740652;
    static_const "BLASTER_FIRE" 639453935;
    static_const "BLASTERV3_FIRE" 2401202452;
    static_const "BOTTLE_SMASH" 3295549328;
    static_const "CHARGING_TOTEM" 2008779410;
    static_const "CHEST_OPEN" 2728948375;
    static_const "CHEST_REVEAL_01" 4062859618;
    static_const "CHEST_REVEAL_02" 4062859617;
    static_const "CHEST_REVEAL_03" 4062859616;
    static_const "CHEST_REVEAL_04" 4062859623;
    static_const "ITEM_PURCHASE" 946567574;
    static_const "LEVEL_UP" 2145291615;
    static_const "PLAYER_DEATH" 3083087645;
    static_const "PLAYER_JUMP" 1305133589;
    static_const "PLAYER_SPAWN_IN" 2311955112;
    static_const "TOTEM_FINISH" 39357614;
    static_const "WEAPON_UPGRADE_TIER_1" 3850320119;
    static_const "WEAPON_UPGRADE_TIER_2" 3850320116;
    static_const "WEAPON_UPGRADE_TIER_3" 3850320117 ].

Definition BUSSES : list decl :=
  [ static_const "MASTER_AUDIO_BUS" 3803692087 ].

Definition AUDIO_DEVICES : list decl :=
  [ static_const "NO_OUTPUT" 2317455096;
    static_const "SYSTEM" 3859886410 ].

End AK.

(** The whole translation unit: [namespace AK] with its three blocks, in
    the order of the file. *)
Definition Wwise_IDs_h : list decl :=
  [ Namespace "AK"
      [ Namespace "EVENTS" AK.EVENTS;
        Namespace "BUSSES" AK.BUSSES;
        Namespace "AUDIO_DEVICES" AK.AUDIO_DEVICES ] ].

(** ** The declared type *)

(** Modelled from the spec: [AkUniqueID] is declared in
    [<AK/SoundEngine/Common/AkTypes.h>], which the header only includes;
    the spec gives it as an unsigned 32-bit integer.  Initialising such an
    object from an integer literal keeps the literal modulo [2^32]. *)
Definition AkUniqueID_modulus : Z := 2 ^ 32.

(** Modelled from the spec: the conversion of an integer to the absent
    type [AkUniqueID], unsigned and 32 bits wide. *)
Definition to_AkUniqueID (lit : Z) : Z := lit mod AkUniqueID_modulus.

(** Modelled from the spec: [AK_INVALID_UNIQUE_ID] is declared in the same
    absent [AkTypes.h]; it is the middleware's invalid-identifier value 0. *)
Definition AK_INVALID_UNIQUE_ID : Z := 0.

(** ** Entries: the constants with their enclosing namespaces *)

Record entry := Entry { e_path : list string; e_const : constant }.

Global Instance entry_eq_dec : EqDecision entry.
Proof. solve_decision. Defined.

Definition e_name (e : entry) : string := c_name (e_const e).
Definition e_ty (e : entry) : string := c_ty (e_const e).
Definition e_lit (e : entry) : Z := c_lit (e_const e).

(** The value the constant object holds. *)
Definition e_id (e : entry) : Z := to_AkUniqueID (e_lit e).

(** The fully qualified name, [AK::EVENTS::BGM_RANDOMLOOPING] as
    [["AK"; "EVENTS"; "BGM_RANDOMLOOPING"]]. *)
Definition e_qname (e : entry) : list string := e_path e ++ [e_name e].

Fixpoint entries_of (pre : list string) (d : decl) : list entry :=
  match d with
  | StaticConst c => [Entry pre c]
  | Namespace n body => flat_map (entries_of (pre ++ [n])) body
  end.

Definition entries_in (pre : list string) (ds : list decl) : list entry :=
  flat_map (entries_of pre) ds.

(** All the constants the header declares, in file order. *)
Definition table : list entry := entries_in [] Wwise_IDs_h.

(** ** Categories *)

Inductive Category := Event | Bus | AudioDeviceType.

Global Instance Category_eq_dec : EqDecision Category.
Proof. solve_decision. Defined.

Definition namespace_of (c : Category) : string :=
  match c with
  | Event => "EVENTS"
  | Bus => "BUSSES"
  | AudioDeviceType => "AUDIO_DEVICES"
  end.

Definition all_categories : list Category := [Event; Bus; AudioDeviceType].

(** The category an entry is declared in: the one whose namespace, inside
    [AK], is exactly the entry's enclosing scope. *)
Definition categories_of (e : entry) : list Category :=
  filter (fun c => e_path e = ["AK"; namespace_of c]) all_categories.

Definition category_entries (c : Category) : list entry :=
  filter (fun e => e_path e = ["AK"; namespace_of c]) table.

(** ** Qualified-name lookup *)

(** The members of namespace [n] among [ds].  A namespace may be opened
    more than once; its blocks are then one scope. *)
Definition namespace_members (n : string) (ds : list decl) : list decl :=
  flat_map (fun d => match d with
                     | Namespace m body => if decide (m = n) then body else []
                     | StaticConst _ => []
                     end) ds.

(** The constants named [n] that are declared directly in [ds]. *)
Definition constants_named (n : string) (ds : list decl) : list constant :=
  flat_map (fun d => match d with
                     | StaticConst c => if decide (c_name c = n) then [c] else []
                     | Namespace _ _ => []
                     end) ds.

(** Resolving a fully qualified name, written from the global scope
    without a leading [::] and with no using-directive or alias in force.
    It succeeds when the name denotes one constant; an undeclared name, or
    one declared twice in the same scope, is rejected by the compiler. *)
Fixpoint resolve (ds : list decl) (q : list string) : option constant :=
  match q with
  | [] => None
  | [n] => match constants_named n ds with
           | [c] => Some c
           | _ => None
           end
  | n :: q' => resolve (namespace_members n ds) q'
  end.

(** Reading a constant by its qualified name yields the value of the
    object. *)
Definition lookup (ds : list decl) (q : list string) : option Z :=
  match resolve ds q with
  | Some c => Some (to_AkUniqueID (c_lit c))
  | None => None
  end.

(** The qualified name of the one bus of the project. *)
Definition MASTER_AUDIO_BUS_qname : list string :=
  ["AK"; "BUSSES"; "MASTER_AUDIO_BUS"].

(** ** The identifier hash of the authoring tool *)

(** Modelled from the spec: the bytes of a name, the input of the hash
    below, which the header does not contain. *)
Definition bytes_of (s : string) : list Z :=
  map (fun a => Z.of_N (Ascii.N_of_ascii a)) (String.list_ascii_of_string s).

(** Modelled from the spec: the lower-casing that precedes the hash, which
    the header does not contain; on one byte, [A]..[Z] move to [a]..[z]. *)
Definition lower_byte (b : Z) : Z :=
  if (65 <=? b) && (b <=? 90) then b + 32 else b.

(** Modelled from the spec: the two constants of 32-bit FNV-1, which the
    header does not contain. *)
Definition FNV_offset_basis : Z := 2166136261.
Definition FNV_prime : Z := 16777619.

(** Modelled from the spec: one round of FNV-1, which the header does not
    contain: multiply by the prime in 32 bits, then xor the byte in. *)
Definition FNV_round (h b : Z) : Z :=
  Z.lxor ((h * FNV_prime) mod 2 ^ 32) b.

(** Modelled from the spec: the hash the authoring tool computes from a
    name is not part of the header; it is taken as stated, the 32-bit FNV-1
    hash of the lower-cased name. *)
Definition GetIDFromString (s : string) : Z :=
  fold_left FNV_round (map lower_byte (bytes_of s)) FNV_offset_basis.

(** A name with each underscore read as a space; it serves to state what
    the one identifier that is not the hash of its symbolic name is. *)
Definition underscores_as_spaces (s : string) : string :=
  String.string_of_list_ascii
    (map (fun a => if decide (a = "_"%char) then " "%char else a)
         (String.list_ascii_of_string s)).

(** ** Accessing the objects *)

(** The objects of the translation unit, as a consumer sees them. *)
Definition store : Type := list decl.

(** A program reads an object through its qualified name, or assigns to
    it. *)
Inductive op :=
| Read (q : list string)
| Write (q : list string) (v : Z).

Definition op_name (o : op) : list string :=
  match o with
  | Read q => q
  | Write q _ => q
  end.

(** The unit after the object named [q] has been given the value [v]. *)
Fixpoint assign (q : list string) (v : Z) (ds : list decl) : list decl :=
  match q with
  | [] => ds
  | [n] =>
      map (fun d => match d with
                    | StaticConst c =>
                        if decide (c_name c = n)
                        then StaticConst (Object (c_const c) (c_ty c) (c_name c) v)
                        else d
                    | Namespace _ _ => d
                    end) ds
  | n :: q' =>
      map (fun d => match d with
                    | Namespace m body =>
                        if decide (m = n) then Namespace m (assign q' v body)
                        else d
                    | StaticConst _ => d
                    end) ds
  end.

(** One access: the store it leaves and the value it yields.  A read
    yields the value of the object.  An assignment to an object that is
    not [const] stores the converted value and yields it; an assignment to
    a [const] object is rejected by the compiler, as is any access through
    a name that does not resolve: it yields nothing and leaves the store as
    it is. *)
Definition exec (s : store) (o : op) : store * option Z :=
  match o with
  | Read q => (s, lookup s q)
  | Write q v =>
      match resolve s q with
      | Some c =>
          if c_const c then (s, None)
          else (assign q (to_AkUniqueID v) s, Some (to_AkUniqueID v))
      | None => (s, None)
      end
  end.

(** A sequence of accesses, threading the store. *)
Fixpoint run (s : store) (os : list op) : store * list (option Z) :=
  match os with
  | [] => (s, [])
  | o :: os' =>
      let '(s1, r) := exec s o in
      let '(s2, rs) := run s1 os' in
      (s2, r :: rs)
  end.

(** What an access yields in a given store. *)
Definition result_in (s : store) (o : op) : option Z := (exec s o).2.

(** ** Several threads *)

Inductive access := Load | Modify.

Global Instance access_eq_dec : EqDecision access.
Proof. solve_decision. Defined.

(** What kind of memory access an operation performs. *)
Definition access_of (o : op) : access :=
  match o with
  | Read _ => Load
  | Write _ _ => Modify
  end.

Record event := Event_ { ev_thread : nat; ev_access : access; ev_loc : list string }.

Global Instance event_eq_dec : EqDecision event.
Proof. solve_decision. Defined.

(** The memory access thread [t] makes by an operation that yields [r]:
    an operation the compiler rejects is no part of the program and
    touches nothing. *)
Definition access_event (t : nat) (o : op) (r : option Z) : list event :=
  match r with
  | Some _ => [Event_ t (access_of o) (op_name o)]
  | None => []
  end.

(** A configuration: the shared objects, what each thread has still to
    do, what each thread has obtained so far, and the accesses made. *)
Record config := Config {
  mem : store;
  pool : list (list op);
  seen : list (list (option Z));
  trace : list event
}.

Definition init_in (s : store) (progs : list (list op)) : config :=
  Config s progs (replicate (length progs) []) [].

(** The threads start on the objects of the header. *)
Definition init (progs : list (list op)) : config :=
  init_in Wwise_IDs_h progs.

(** Thread [t] takes its next step; a thread that has finished, or that
    does not exist, leaves the configuration as it is. *)
Definition step (c : config) (t : nat) : config :=
  match pool c !! t with
  | Some (o :: rest) =>
      let '(m, r) := exec (mem c) o in
      Config m
             (<[t := rest]> (pool c))
             (alter (fun l => l ++ [r]) t (seen c))
             (trace c ++ access_event t o r)
  | _ => c
  end.

(** A schedule names the thread that moves at each instant. *)
Definition interleave (c : config) (sched : list nat) : config :=
  fold_left step sched c.

(** How often a schedule lets thread [t] move. *)
Definition steps_of (t : nat) (sched : list nat) : nat :=
  length (filter (fun x => x = t) sched).

(** Two accesses race when they come from different threads, touch the
    same object and one of them modifies it. *)
Definition data_race (e1 e2 : event) : Prop :=
  ev_thread e1 <> ev_thread e2 /\ ev_loc e1 = ev_loc e2 /\
  (ev_access e1 = Modify \/ ev_access e2 = Modify).

(** What holds of the configuration reached from [init progs] by the
    schedule [done]: the objects are those of the header; each thread has
    taken as many steps as the schedule gave it, up to the end of its
    program, has obtained exactly the values its program obtains alone up
    to there, and has made exactly the accesses of those steps. *)
Record reachable_inv (progs : list (list op)) (done : list nat) (c : config)
  : Prop := {
  inv_mem : mem c = Wwise_IDs_h;
  inv_pool : length (pool c) = length progs;
  inv_threads :
    forall (t : nat) (p : list op), progs !! t = Some p ->
      pool c !! t
      = Some (drop (Nat.min (steps_of t done) (length p)) p) /\
      seen c !! t
      = Some (take (Nat.min (steps_of t done) (length p))
                   (run Wwise_IDs_h p).2) /\
      filter (fun e => ev_thread e = t) (trace c)
      = flat_map (fun o => access_event t o (result_in Wwise_IDs_h o))
                 (take (Nat.min (steps_of t done) (length p)) p);
  inv_trace : Forall (fun e => ev_access e = Load) (trace c)
}.

(** ** The include guard *)




Section Preprocessor.

(** What including another header does to the set of defined macros.  The
    declarations of such a header are types, which [decl] does not record. *)
Variable include_other : string -> gset string -> gset string.



End Preprocessor.

(** ** The order of the declarations *)

(** The key a name is listed under: its bytes, letters in lower case. *)
Definition name_key (s : string) : list Z := map lower_byte (bytes_of s).

(** Lexicographic order on byte strings. *)
Fixpoint bytes_ltb (a b : list Z) : bool :=
  match a, b with
  | _, [] => false
  | [], _ :: _ => true
  | x :: a', y :: b' => (x <? y) || ((x =? y) && bytes_ltb a' b')
  end.

Definition name_before (s1 s2 : string) : bool :=
  bytes_ltb (name_key s1) (name_key s2).

(** Every element stands before all the later ones. *)
Fixpoint ascending (l : list string) : bool :=
  match l with
  | [] => true
  | a :: rest => forallb (name_before a) rest && ascending rest
  end.

(** * Properties *)

(** ** Tools *)

(** A decidable fact about the closed table is settled by evaluation. *)
Ltac by_evaluation :=
  lazymatch goal with
  | |- ?P => apply (bool_decide_unpack P); vm_compute; exact I
  end.

Section Lists.
Context {A B : Type}.

(** Under an injective-on-the-list projection, entries at different
    positions project to different values. *)
Lemma NoDup_fmap_lookup_ne (f : A -> B) (l : list A) (i j : nat) (x y : A) :
  NoDup (map f l) -> l !! i = Some x -> l !! j = Some y -> i <> j ->
  f x <> f y.
Proof.
  intros Hnd Hi Hj Hij Hxy. apply Hij.
  apply (proj1 (NoDup_alt (map f l)) Hnd i j (f x)).
  - change (map f l) with (f <$> l). now rewrite list_lookup_fmap, Hi.
  - change (map f l) with (f <$> l). now rewrite list_lookup_fmap, Hj, Hxy.
Qed.
End Lists.

Lemma table_length : length table = 23%nat.
Proof. reflexivity. Qed.

(** No literal of the header is changed by the conversion to the declared
    type. *)
Lemma table_literals_fit :
  Forall (fun e => 0 <= e_lit e <= 2 ^ 32 - 1) table.
Proof. by_evaluation. Qed.

Lemma to_AkUniqueID_fits (z : Z) :
  0 <= z <= 2 ^ 32 - 1 -> to_AkUniqueID z = z.
Proof.
  intros H. unfold to_AkUniqueID, AkUniqueID_modulus.
  apply Z.mod_small. lia.
Qed.

Lemma category_names_NoDup (c : Category) :
  NoDup (map e_name (category_entries c)).
Proof. destruct c; by_evaluation. Qed.

Lemma category_ids_NoDup (c : Category) :
  NoDup (map e_id (category_entries c)).
Proof. destruct c; by_evaluation. Qed.

Lemma table_ids_NoDup : NoDup (map e_id table).
Proof. by_evaluation. Qed.

Lemma table_names_NoDup : NoDup (map e_name table).
Proof. by_evaluation. Qed.

(** Equal names in the table belong to one and the same entry. *)
Lemma table_name_determines_entry (e e' : entry) :
  e ∈ table -> e' ∈ table -> e_name e' = e_name e -> e' = e.
Proof.
  intros He He' Hname.
  apply list_elem_of_lookup_1 in He as [i Hi].
  apply list_elem_of_lookup_1 in He' as [j Hj].
  destruct (decide (j = i)) as [->|Hji].
  - congruence.
  - exfalso.
    exact (NoDup_fmap_lookup_ne e_name _ j i e' e
             table_names_NoDup Hj Hi Hji Hname).
Qed.

(** The lookup does have failing cases: a name the header does not
    declare, a namespace in place of a constant, and a name declared twice
    in one scope are all rejected. *)
Example lookup_undeclared :
  lookup Wwise_IDs_h ["AK"; "EVENTS"; "BGM_RANDOMLOOPING_START"] = None /\
  lookup Wwise_IDs_h ["AK"; "BUSSES"; "BGM_RANDOMLOOPING"] = None /\
  lookup Wwise_IDs_h ["AK"; "EVENTS"] = None /\
  lookup [static_const "A" 1; static_const "A" 2] ["A"] = None.
Proof. repeat split. Qed.

(** ** The properties of the specification *)

(** C1. Inside one category (EVENTS, BUSSES or AUDIO_DEVICES) two distinct
    entries never share a symbolic name and never share an identifier
    value. *)
Theorem C1_unique_within_category (c : Category) (i j : nat) (e1 e2 : entry) :
  category_entries c !! i = Some e1 ->
  category_entries c !! j = Some e2 ->
  i <> j ->
  e_name e1 <> e_name e2 /\ e_id e1 <> e_id e2.
Proof.
  intros Hi Hj Hij. split.
  - exact (NoDup_fmap_lookup_ne e_name _ i j e1 e2
             (category_names_NoDup c) Hi Hj Hij).
  - exact (NoDup_fmap_lookup_ne e_id _ i j e1 e2
             (category_ids_NoDup c) Hi Hj Hij).
Qed.

Lemma C1_witness :
  let e1 := Entry ["AK"; "EVENTS"]
                  (Const AkUniqueID_name "CHEST_REVEAL_01" 4062859618) in
  let e2 := Entry ["AK"; "EVENTS"]
                  (Const AkUniqueID_name "CHEST_REVEAL_02" 4062859617) in
  e_name e1 <> e_name e2 /\ e_id e1 <> e_id e2.
Proof.
  intros e1 e2.
  exact (C1_unique_within_category Event 7 8 e1 e2
           eq_refl eq_refl ltac:(lia)).
Defined.

(** C2. Every identifier of the table is an unsigned 32-bit value: the
    constant as declared lies in 0 .. 2^32 - 1, so the object holds exactly
    the number that is written, and that number is in range. *)
Theorem C2_identifier_is_u32 (e : entry) :
  e ∈ table ->
  0 <= e_lit e <= 2 ^ 32 - 1 /\ e_id e = e_lit e /\ 0 <= e_id e <= 2 ^ 32 - 1.
Proof.
  intros He.
  pose proof (proj1 (Forall_forall _ _) table_literals_fit e He) as Hfit.
  cbv beta in Hfit.
  assert (e_id e = e_lit e) as Hid by (apply to_AkUniqueID_fits; exact Hfit).
  rewrite Hid. auto.
Qed.

Lemma C2_witness :
  let e := Entry ["AK"; "EVENTS"]
                 (Const AkUniqueID_name "CHEST_REVEAL_04" 4062859623) in
  0 <= e_lit e <= 2 ^ 32 - 1 /\ e_id e = e_lit e /\ 0 <= e_id e <= 2 ^ 32 - 1.
Proof.
  intros e. apply (C2_identifier_is_u32 e).
  by_evaluation.
Defined.

(** C3. The event named BGM_RANDOMLOOPING maps to exactly 3963821017:
    looking up the constant AK::EVENTS::BGM_RANDOMLOOPING returns that
    value, and any entry of the table that bears the name is the event
    with that value. *)
Theorem C3_BGM_RANDOMLOOPING :
  lookup Wwise_IDs_h ["AK"; "EVENTS"; "BGM_RANDOMLOOPING"] = Some 3963821017 /\
  forall e : entry,
    e ∈ table -> e_name e = "BGM_RANDOMLOOPING" ->
    e_path e = ["AK"; "EVENTS"] /\ e_id e = 3963821017.
Proof.
  split; [reflexivity|].
  intros e He Hname.
  set (bgm := Entry ["AK"; "EVENTS"]
                    (Const AkUniqueID_name "BGM_RANDOMLOOPING" 3963821017)).
  assert (bgm ∈ table) as Hbgm by by_evaluation.
  rewrite (table_name_determines_entry bgm e Hbgm He Hname).
  split; reflexivity.
Qed.

Lemma C3_witness :
  let e := Entry ["AK"; "EVENTS"]
                 (Const AkUniqueID_name "BGM_RANDOMLOOPING" 3963821017) in
  e_path e = ["AK"; "EVENTS"] /\ e_id e = 3963821017.
Proof.
  intros e. apply (proj2 C3_BGM_RANDOMLOOPING e); [by_evaluation|reflexivity].
Defined.

(** C9. The 23 identifiers of the file are pairwise distinct across the
    whole table: two distinct entries, also of different categories, never
    hold the same value. *)
Theorem C9_identifiers_globally_unique :
  length table = 23%nat /\
  NoDup (map e_id table) /\
  forall (i j : nat) (e1 e2 : entry),
    table !! i = Some e1 -> table !! j = Some e2 -> i <> j ->
    e_id e1 <> e_id e2.
Proof.
  split; [exact table_length|]. split; [exact table_ids_NoDup|].
  intros i j e1 e2 Hi Hj Hij.
  exact (NoDup_fmap_lookup_ne e_id _ i j e1 e2 table_ids_NoDup Hi Hj Hij).
Qed.

Lemma C9_witness :
  let e1 := Entry ["AK"; "EVENTS"]
                  (Const AkUniqueID_name "WEAPON_UPGRADE_TIER_3" 3850320117) in
  let e2 := Entry ["AK"; "BUSSES"]
                  (Const AkUniqueID_name "MASTER_AUDIO_BUS" 3803692087) in
  e_id e1 <> e_id e2.
Proof.
  intros e1 e2.
  exact (proj2 (proj2 C9_identifiers_globally_unique) 19%nat 20%nat e1 e2
           eq_refl eq_refl ltac:(lia)).
Defined.

(** C10. No identifier of the table is zero: every constant is strictly
    positive and so differs from the invalid identifier
    AK_INVALID_UNIQUE_ID. *)
Theorem C10_identifier_nonzero (e : entry) :
  e ∈ table -> 0 < e_id e /\ e_id e <> AK_INVALID_UNIQUE_ID.
Proof.
  intros He.
  assert (Forall (fun e => 0 < e_id e) table) as Hall by by_evaluation.
  pose proof (proj1 (Forall_forall _ _) Hall e He) as Hpos.
  cbv beta in Hpos. split; [exact Hpos|]. unfold AK_INVALID_UNIQUE_ID. lia.
Qed.

Lemma C10_witness :
  let e := Entry ["AK"; "EVENTS"]
                 (Const AkUniqueID_name "TOTEM_FINISH" 39357614) in
  0 < e_id e /\ e_id e <> AK_INVALID_UNIQUE_ID.
Proof.
  intros e. apply (C10_identifier_nonzero e).
  by_evaluation.
Defined.

(** C4, as stated, fails at AK::BUSSES::MASTER_AUDIO_BUS: the constant is
    3803692087, while the FNV-1 hash of the lower-cased symbolic name
    "master_audio_bus" is 2392784291.  So the identifier is not, for every
    entry, the hash of the symbolic name. *)
Lemma C4_counterexample :
  let e := Entry ["AK"; "BUSSES"]
                 (Const AkUniqueID_name "MASTER_AUDIO_BUS" 3803692087) in
  (e ∈ table /\ e_id e = 3803692087 /\
   GetIDFromString (e_name e) = 2392784291) /\
  ~ (forall e' : entry, e' ∈ table -> e_id e' = GetIDFromString (e_name e')).
Proof.
  intros e.
  assert (e ∈ table) as He by by_evaluation.
  split.
  - split; [exact He|]. split; reflexivity.
  - intros Hall. specialize (Hall e He). vm_compute in Hall. discriminate Hall.
Qed.

(** C4, amended. Every identifier is the 32-bit FNV-1 hash of a
    lower-cased name: for each entry but AK::BUSSES::MASTER_AUDIO_BUS it is
    the hash of the symbolic name itself; for MASTER_AUDIO_BUS it is the
    hash of the name with its underscores read as spaces ("master audio
    bus").  Equal names in the table carry equal identifiers, so the
    binding is a function of the name. *)
Theorem C4_identifier_is_name_hash (e : entry) :
  e ∈ table ->
  (e_qname e <> MASTER_AUDIO_BUS_qname ->
   e_id e = GetIDFromString (e_name e)) /\
  (e_qname e = MASTER_AUDIO_BUS_qname ->
   e_id e = GetIDFromString (underscores_as_spaces (e_name e))) /\
  (forall e' : entry, e' ∈ table -> e_name e' = e_name e -> e_id e' = e_id e).
Proof.
  intros He.
  assert (Forall (fun e =>
            (e_qname e <> MASTER_AUDIO_BUS_qname ->
             e_id e = GetIDFromString (e_name e)) /\
            (e_qname e = MASTER_AUDIO_BUS_qname ->
             e_id e = GetIDFromString (underscores_as_spaces (e_name e))))
          table) as Hall by by_evaluation.
  pose proof (proj1 (Forall_forall _ _) Hall e He) as [Hsym Hbus].
  split; [exact Hsym|]. split; [exact Hbus|].
  intros e' He' Hname.
  now rewrite (table_name_determines_entry e e' He He' Hname).
Qed.

Lemma C4_witness :
  let e := Entry ["AK"; "BUSSES"]
                 (Const AkUniqueID_name "MASTER_AUDIO_BUS" 3803692087) in
  let s := Entry ["AK"; "AUDIO_DEVICES"]
                 (Const AkUniqueID_name "SYSTEM" 3859886410) in
  e_id e = GetIDFromString (underscores_as_spaces (e_name e)) /\
  e_id s = GetIDFromString (e_name s).
Proof.
  intros e s.
  assert (e ∈ table) as He by by_evaluation.
  assert (s ∈ table) as Hs by by_evaluation.
  split.
  - exact (proj1 (proj2 (C4_identifier_is_name_hash e He)) eq_refl).
  - apply (proj1 (C4_identifier_is_name_hash s Hs)). discriminate.
Defined.

(** C5. Every entry of the table lies in exactly one of the categories
    Event, Bus and AudioDeviceType; the three namespaces make up the whole
    table, so no entry is declared outside them; and the category makes no
    difference to an entry: each one is a name with an [AkUniqueID] value
    of 32 bits, read by the same lookup. *)
Theorem C5_three_categories :
  (forall e : entry, e ∈ table ->
     exists c : Category,
       categories_of e = [c] /\ e ∈ category_entries c /\
       forall c' : Category, e ∈ category_entries c' -> c' = c) /\
  table = category_entries Event ++ category_entries Bus
          ++ category_entries AudioDeviceType /\
  (forall e : entry, e ∈ table ->
     e_ty e = AkUniqueID_name /\ 0 <= e_id e <= 2 ^ 32 - 1 /\
     lookup Wwise_IDs_h (e_qname e) = Some (e_id e)).
Proof.
  split; [|split].
  - intros e He.
    assert (Forall (fun e => exists c, categories_of e = [c]) table) as Hall.
    { repeat (apply Forall_cons; split; [eexists; reflexivity|]).
      apply Forall_nil. exact I. }
    destruct (proj1 (Forall_forall _ _) Hall e He) as [c Hc].
    exists c. split; [exact Hc|].
    assert (forall c' : Category,
              e ∈ category_entries c' <-> c' ∈ categories_of e) as Hiff.
    { intros c'. unfold category_entries, categories_of.
      rewrite !list_elem_of_filter. split.
      - intros [Hp _]. split; [exact Hp|]. destruct c'; by_evaluation.
      - intros [Hp _]. split; [exact Hp|exact He]. }
    split.
    + apply Hiff. rewrite Hc.
      exact (proj2 (list_elem_of_singleton c c) eq_refl).
    + intros c' Hc'. apply Hiff in Hc'. rewrite Hc in Hc'.
      exact (proj1 (list_elem_of_singleton c' c) Hc').
  - reflexivity.
  - intros e He.
    assert (Forall (fun e =>
              e_ty e = AkUniqueID_name /\ 0 <= e_id e <= 2 ^ 32 - 1 /\
              lookup Wwise_IDs_h (e_qname e) = Some (e_id e)) table)
      as Hall by by_evaluation.
    exact (proj1 (Forall_forall _ _) Hall e He).
Qed.

Lemma C5_witness :
  let e := Entry ["AK"; "AUDIO_DEVICES"]
                 (Const AkUniqueID_name "NO_OUTPUT" 2317455096) in
  (exists c : Category,
     categories_of e = [c] /\ e ∈ category_entries c /\
     forall c' : Category, e ∈ category_entries c' -> c' = c) /\
  e_ty e = AkUniqueID_name /\ 0 <= e_id e <= 2 ^ 32 - 1 /\
  lookup Wwise_IDs_h (e_qname e) = Some (e_id e).
Proof.
  intros e.
  assert (e ∈ table) as He by by_evaluation.
  split.
  - exact (proj1 C5_three_categories e He).
  - exact (proj2 (proj2 C5_three_categories) e He).
Defined.

(** C7. Lookup never fails on a declared name: for every entry of the
    table, resolving its qualified name succeeds, and the read returns the
    identifier bound to it. *)
Theorem C7_lookup_total (e : entry) :
  e ∈ table ->
  is_Some (lookup Wwise_IDs_h (e_qname e)) /\
  lookup Wwise_IDs_h (e_qname e) = Some (e_id e) /\
  exec Wwise_IDs_h (Read (e_qname e)) = (Wwise_IDs_h, Some (e_id e)).
Proof.
  intros He.
  assert (Forall (fun e => lookup Wwise_IDs_h (e_qname e) = Some (e_id e))
                 table) as Hall by by_evaluation.
  pose proof (proj1 (Forall_forall _ _) Hall e He) as Hl. cbv beta in Hl.
  split; [rewrite Hl; eexists; reflexivity|].
  split; [exact Hl|]. simpl. now rewrite Hl.
Qed.

Lemma C7_witness :
  lookup Wwise_IDs_h ["AK"; "EVENTS"; "PLAYER_JUMP"] = Some 1305133589.
Proof.
  refine (proj1 (proj2 (C7_lookup_total
            (Entry ["AK"; "EVENTS"]
                   (Const AkUniqueID_name "PLAYER_JUMP" 1305133589)) _))).
  by_evaluation.
Defined.

(** * Further properties of the header *)

(** ** The include guard *)

Section IncludeGuard.

Variable include_other : string -> gset string -> gset string.

(** Including another header does not undefine the guard of this one. *)
Hypothesis include_other_keeps :
  forall (h : string) (M : gset string),
    "__WWISE_IDS_H__" ∈ M -> "__WWISE_IDS_H__" ∈ include_other h M.





End IncludeGuard.


(** Without the guard a second copy of the declarations would declare
    every constant twice, and no name would resolve any more. *)
Example unguarded_twice :
  Forall (fun e => lookup (Wwise_IDs_h ++ Wwise_IDs_h) (e_qname e) = None)
         table.
Proof. by_evaluation. Qed.

(** ** What a qualified name can resolve to *)

Lemma constants_named_elem (n : string) (ds : list decl) (c : constant) :
  c ∈ constants_named n ds -> StaticConst c ∈ ds /\ c_name c = n.
Proof.
  unfold constants_named. rewrite !list_elem_of_In, in_flat_map.
  intros ([c0|m body] & Hd & Hc).
  - destruct (decide (c_name c0 = n)) as [Heq|Hne].
    + destruct Hc as [<-|[]]. split; assumption.
    + destruct Hc.
  - destruct Hc.
Qed.

(** The entries of a namespace are entries of the scope that holds it. *)
Lemma namespace_members_entries
      (pre : list string) (n : string) (ds : list decl) (e : entry) :
  e ∈ entries_in (pre ++ [n]) (namespace_members n ds) ->
  e ∈ entries_in pre ds.
Proof.
  unfold entries_in, namespace_members.
  rewrite !list_elem_of_In, !in_flat_map.
  intros (d' & Hd' & He). apply in_flat_map in Hd' as (d & Hd & Hin).
  exists d. split; [exact Hd|].
  destruct d as [c|m body]; [destruct Hin|].
  destruct (decide (m = n)) as [->|Hne]; [|destruct Hin].
  simpl. apply in_flat_map. exists d'. split; assumption.
Qed.

(** Whatever a qualified name resolves to is a constant declared under
    exactly that name, in any tree of declarations. *)
Lemma resolve_declared (q : list string) :
  forall (ds : list decl) (pre : list string) (c : constant),
    resolve ds q = Some c ->
    exists path : list string,
      q = path ++ [c_name c] /\ Entry (pre ++ path) c ∈ entries_in pre ds.
Proof.
  induction q as [|n q IH]; intros ds pre c Hres.
  - discriminate Hres.
  - destruct q as [|m q'].
    + simpl in Hres.
      destruct (constants_named n ds) as [|c0 [|c1 l]] eqn:Hnamed;
        try discriminate Hres.
      injection Hres as ->.
      assert (c ∈ constants_named n ds) as Hc
          by (rewrite Hnamed; apply list_elem_of_In; left; reflexivity).
      apply constants_named_elem in Hc as [Hin <-].
      exists []. split; [reflexivity|].
      rewrite app_nil_r. unfold entries_in.
      apply list_elem_of_In, in_flat_map.
      exists (StaticConst c). split; [now apply list_elem_of_In|].
      left. reflexivity.
    + change (resolve (namespace_members n ds) (m :: q') = Some c) in Hres.
      destruct (IH _ (pre ++ [n]) c Hres) as (path & Hq & Hin).
      exists (n :: path). split; [now rewrite Hq|].
      apply (namespace_members_entries pre n).
      now rewrite <- app_assoc in Hin.
Qed.

(** ** Names across the categories *)

(** X2. Symbolic names are unique across the whole table, not only inside
    a category: two distinct entries never bear the same name, so a bare
    name determines its entry, and with it its namespace and its
    identifier. *)
Theorem X2_names_globally_unique :
  (forall (i j : nat) (e1 e2 : entry),
     table !! i = Some e1 -> table !! j = Some e2 -> i <> j ->
     e_name e1 <> e_name e2) /\
  (forall e1 e2 : entry,
     e1 ∈ table -> e2 ∈ table -> e_name e1 = e_name e2 ->
     e_path e1 = e_path e2 /\ e_id e1 = e_id e2).
Proof.
  split.
  - intros i j e1 e2 Hi Hj Hij.
    exact (NoDup_fmap_lookup_ne e_name _ i j e1 e2 table_names_NoDup Hi Hj Hij).
  - intros e1 e2 H1 H2 Hname.
    rewrite (table_name_determines_entry e2 e1 H2 H1 Hname).
    split; reflexivity.
Qed.

Lemma X2_witness :
  let e1 := Entry ["AK"; "BUSSES"]
                  (Const AkUniqueID_name "MASTER_AUDIO_BUS" 3803692087) in
  let e2 := Entry ["AK"; "AUDIO_DEVICES"]
                  (Const AkUniqueID_name "SYSTEM" 3859886410) in
  e_name e1 <> e_name e2.
Proof.
  intros e1 e2.
  exact (proj1 X2_names_globally_unique 20%nat 22%nat e1 e2
           eq_refl eq_refl ltac:(lia)).
Defined.

(** ** The order of the declarations *)

Lemma bytes_ltb_asym (a : list Z) :
  forall b : list Z, bytes_ltb a b = true -> bytes_ltb b a = false.
Proof.
  induction a as [|x a IH]; intros [|y b] H; simpl in *;
    try reflexivity; try discriminate H.
  apply orb_true_iff in H as [H|H].
  - apply Z.ltb_lt in H.
    replace (y <? x) with false by (symmetry; apply Z.ltb_ge; lia).
    replace (y =? x) with false by (symmetry; apply Z.eqb_neq; lia).
    reflexivity.
  - apply andb_true_iff in H as [Hxy Hab]. apply Z.eqb_eq in Hxy. subst y.
    rewrite Z.ltb_irrefl, Z.eqb_refl. simpl. apply IH, Hab.
Qed.

Lemma ascending_lookup (l : list string) :
  forall (i j : nat) (a b : string),
    ascending l = true -> l !! i = Some a -> l !! j = Some b ->
    (i < j)%nat -> name_before a b = true.
Proof.
  induction l as [|a0 rest IH]; intros i j a b Hasc Hi Hj Hij.
  - discriminate Hi.
  - simpl in Hasc. apply andb_true_iff in Hasc as [Hhead Hrest].
    destruct j as [|j]; [lia|]. simpl in Hj.
    destruct i as [|i]; simpl in Hi.
    + injection Hi as ->.
      apply (proj1 (forallb_forall _ _) Hhead).
      apply list_elem_of_In. exact (list_elem_of_lookup_2 _ _ _ Hj).
    + apply (IH i j a b Hrest Hi Hj). lia.
Qed.

(** X3. Inside each namespace the constants are listed in strictly
    ascending order of their names compared without regard to letter case
    (byte by byte, letters in lower case): an earlier entry's name stands
    before a later entry's name, and never the other way round. *)
Theorem X3_listed_in_name_order
        (c : Category) (i j : nat) (e1 e2 : entry) :
  category_entries c !! i = Some e1 ->
  category_entries c !! j = Some e2 ->
  (i < j)%nat ->
  name_before (e_name e1) (e_name e2) = true /\
  name_before (e_name e2) (e_name e1) = false.
Proof.
  intros Hi Hj Hij.
  assert (ascending (map e_name (category_entries c)) = true) as Hasc
      by (destruct c; vm_compute; reflexivity).
  assert (name_before (e_name e1) (e_name e2) = true) as Hlt.
  { apply (ascending_lookup _ i j _ _ Hasc); [| |exact Hij].
    - change (map e_name ?l) with (e_name <$> l).
      now rewrite list_lookup_fmap, Hi.
    - change (map e_name ?l) with (e_name <$> l).
      now rewrite list_lookup_fmap, Hj. }
  split; [exact Hlt|]. apply bytes_ltb_asym, Hlt.
Qed.

Lemma X3_witness :
  name_before "BLASTER_FIRE" "BLASTERV3_FIRE" = true /\
  name_before "BLASTERV3_FIRE" "BLASTER_FIRE" = false.
Proof.
  exact (X3_listed_in_name_order Event 2 3
           (Entry ["AK"; "EVENTS"]
                  (Const AkUniqueID_name "BLASTER_FIRE" 639453935))
           (Entry ["AK"; "EVENTS"]
                  (Const AkUniqueID_name "BLASTERV3_FIRE" 2401202452))
           eq_refl eq_refl ltac:(lia)).
Defined.

(** The order is not that of the bytes as written: in it BLASTERV3_FIRE
    would stand before BLASTER_FIRE. *)
Example not_in_raw_byte_order :
  bytes_ltb (bytes_of "BLASTER_FIRE") (bytes_of "BLASTERV3_FIRE") = false.
Proof. reflexivity. Qed.

(** ** Immutability *)

Lemma table_all_const :
  Forall (fun e => c_const (e_const e) = true) table.
Proof. by_evaluation. Qed.

(** Whatever name resolves in the header names a [const] object. *)
Lemma header_resolves_const (q : list string) (c : constant) :
  resolve Wwise_IDs_h q = Some c -> c_const c = true.
Proof.
  intros Hres.
  destruct (resolve_declared q Wwise_IDs_h [] c Hres) as (path & _ & Hin).
  exact (proj1 (Forall_forall _ _) table_all_const _ Hin).
Qed.

(** No access changes the objects of the header. *)
Lemma header_exec (o : op) :
  exec Wwise_IDs_h o = (Wwise_IDs_h, result_in Wwise_IDs_h o).
Proof.
  unfold result_in. destruct o as [q|q v]; unfold exec; [reflexivity|].
  destruct (resolve Wwise_IDs_h q) as [c|] eqn:Hres; [|reflexivity].
  rewrite (header_resolves_const q c Hres). reflexivity.
Qed.

(** Every assignment to the header is rejected. *)
Lemma header_write (q : list string) (v : Z) :
  result_in Wwise_IDs_h (Write q v) = None.
Proof.
  unfold result_in, exec.
  destruct (resolve Wwise_IDs_h q) as [c|] eqn:Hres; [|reflexivity].
  rewrite (header_resolves_const q c Hres). reflexivity.
Qed.

Lemma header_run (os : list op) :
  run Wwise_IDs_h os = (Wwise_IDs_h, map (result_in Wwise_IDs_h) os).
Proof.
  induction os as [|o os IH].
  - reflexivity.
  - change (run Wwise_IDs_h (o :: os))
      with (let '(s1, r) := exec Wwise_IDs_h o in
            let '(s2, rs) := run s1 os in (s2, r :: rs)).
    rewrite header_exec, IH. reflexivity.
Qed.

(** The model does tell a [const] object from one that is not: in a unit
    whose object lacks the qualifier an assignment is accepted, and the
    same read yields another value after it. *)
Example assignment_to_mutable_object :
  run [StaticConst (Object false AkUniqueID_name "X" 1)]
      [Read ["X"]; Write ["X"] 2; Read ["X"]]
  = ([StaticConst (Object false AkUniqueID_name "X" 2)],
     [Some 1; Some 2; Some 2]) /\
  run [static_const "X" 1] [Read ["X"]; Write ["X"] 2; Read ["X"]]
  = ([static_const "X" 1], [Some 1; None; Some 1]).
Proof. split; reflexivity. Qed.

(** C6. The table is immutable and a read has no side effect: every
    assignment to an object of the header is rejected, so that reading is
    the only operation a program has on it; a read returns the store as it
    found it; after any sequence of operations the store, and with it every
    entry of the table, is what it was; and two reads of the same constant,
    at any two places of the sequence and whatever was attempted in
    between, return the same value. *)
Theorem C6_reads_have_no_effect (os : list op) :
  (forall (q : list string) (v : Z),
     exec Wwise_IDs_h (Write q v) = (Wwise_IDs_h, None)) /\
  (forall q : list string,
     exec Wwise_IDs_h (Read q) = (Wwise_IDs_h, lookup Wwise_IDs_h q)) /\
  (run Wwise_IDs_h os).1 = Wwise_IDs_h /\
  entries_in [] (run Wwise_IDs_h os).1 = table /\
  (forall (i j : nat) (q : list string),
     os !! i = Some (Read q) -> os !! j = Some (Read q) ->
     (run Wwise_IDs_h os).2 !! i = Some (lookup Wwise_IDs_h q) /\
     (run Wwise_IDs_h os).2 !! i = (run Wwise_IDs_h os).2 !! j).
Proof.
  split; [|split; [|split; [|split]]].
  - intros q v. now rewrite header_exec, header_write.
  - reflexivity.
  - now rewrite header_run.
  - now rewrite header_run.
  - intros i j q Hi Hj. rewrite header_run. simpl.
    change (map ?f os) with (f <$> os).
    rewrite !list_lookup_fmap, Hi, Hj. split; reflexivity.
Qed.

Lemma C6_witness :
  let os := [Read ["AK"; "EVENTS"; "LEVEL_UP"];
             Write ["AK"; "EVENTS"; "LEVEL_UP"] 7;
             Read ["AK"; "AUDIO_DEVICES"; "SYSTEM"];
             Read ["AK"; "EVENTS"; "LEVEL_UP"]] in
  (run Wwise_IDs_h os).2 !! 0%nat = Some (Some 2145291615) /\
  (run Wwise_IDs_h os).2 !! 0%nat = (run Wwise_IDs_h os).2 !! 3%nat.
Proof.
  intros os.
  exact (proj2 (proj2 (proj2 (proj2 (C6_reads_have_no_effect os))))
           0%nat 3%nat ["AK"; "EVENTS"; "LEVEL_UP"] eq_refl eq_refl).
Defined.

(** ** Interleaved threads *)

Lemma steps_of_snoc (t t0 : nat) (done : list nat) :
  steps_of t (done ++ [t0])
  = (steps_of t done + (if decide (t0 = t) then 1 else 0))%nat.
Proof.
  unfold steps_of. rewrite filter_app, length_app. f_equal.
  rewrite filter_cons, filter_nil. destruct (decide (t0 = t)); reflexivity.
Qed.

Lemma access_event_filter_same (t : nat) (o : op) (r : option Z) :
  filter (fun e => ev_thread e = t) (access_event t o r) = access_event t o r.
Proof.
  destruct r as [v|]; [|reflexivity]. unfold access_event.
  rewrite filter_cons, filter_nil. simpl.
  destruct (decide (t = t)); [reflexivity|contradiction].
Qed.

Lemma access_event_filter_other (t t0 : nat) (o : op) (r : option Z) :
  t0 <> t ->
  filter (fun e => ev_thread e = t) (access_event t0 o r) = [].
Proof.
  intros Hne. destruct r as [v|]; [|reflexivity]. unfold access_event.
  rewrite filter_cons, filter_nil. simpl.
  destruct (decide (t0 = t)); [contradiction|reflexivity].
Qed.

(** On the header an access that is performed is a load. *)
Lemma header_access_event_load (t : nat) (o : op) :
  Forall (fun e => ev_access e = Load)
         (access_event t o (result_in Wwise_IDs_h o)).
Proof.
  destruct o as [q|q v].
  - destruct (result_in Wwise_IDs_h (Read q)); simpl.
    + apply Forall_cons. split; [reflexivity|]. apply Forall_nil. exact I.
    + apply Forall_nil. exact I.
  - rewrite header_write. apply Forall_nil. exact I.
Qed.

Lemma init_inv (progs : list (list op)) :
  reachable_inv progs [] (init progs).
Proof.
  split; simpl.
  - reflexivity.
  - reflexivity.
  - intros t p Hp. split; [|split].
    + rewrite drop_0. exact Hp.
    + rewrite take_0. apply lookup_replicate_2. exact (lookup_lt_Some _ _ _ Hp).
    + reflexivity.
  - apply Forall_nil. exact I.
Qed.

Lemma step_inv (progs : list (list op)) (done : list nat) (c : config) (t0 : nat) :
  reachable_inv progs done c ->
  reachable_inv progs (done ++ [t0]) (step c t0).
Proof.
  intros [Hmem Hpool Hthr Htr]. unfold step.
  destruct (pool c !! t0) as [[|o rest]|] eqn:Ht0.
  - (* the thread has finished *)
    split; try assumption.
    intros t p Hp. destruct (Hthr t p Hp) as (Hr & Hs & Hf).
    assert (Nat.min (steps_of t (done ++ [t0])) (length p)
            = Nat.min (steps_of t done) (length p)) as ->; [|auto].
    rewrite steps_of_snoc. destruct (decide (t0 = t)) as [->|]; [|lia].
    rewrite Ht0 in Hr. injection Hr as Hr.
    apply (f_equal length) in Hr. rewrite length_drop in Hr. simpl in Hr. lia.
  - (* the thread performs [o] *)
    rewrite Hmem, header_exec. split; simpl.
    + reflexivity.
    + now rewrite length_insert.
    + intros t p Hp. destruct (Hthr t p Hp) as (Hr & Hs & Hf).
      rewrite steps_of_snoc. destruct (decide (t0 = t)) as [->|Hne].
      * rewrite Ht0 in Hr. injection Hr as Hr.
        assert (steps_of t done < length p)%nat as Hlt.
        { apply (f_equal length) in Hr. rewrite length_drop in Hr.
          simpl in Hr. lia. }
        replace (Nat.min (steps_of t done + 1) (length p))
          with (S (steps_of t done)) by lia.
        replace (Nat.min (steps_of t done) (length p))
          with (steps_of t done) in Hr, Hs, Hf by lia.
        assert (p !! steps_of t done = Some o) as Ho.
        { rewrite <- (Nat.add_0_r (steps_of t done)), <- lookup_drop, <- Hr.
          reflexivity. }
        split; [|split].
        -- rewrite list_lookup_insert_eq by exact (lookup_lt_Some _ _ _ Ht0).
           f_equal.
           replace (S (steps_of t done)) with (steps_of t done + 1)%nat by lia.
           now rewrite <- drop_drop, <- Hr.
        -- rewrite list_lookup_alter_eq, Hs. simpl. f_equal.
           symmetry. apply take_S_r. rewrite header_run. simpl.
           change (map ?f p) with (f <$> p).
           now rewrite list_lookup_fmap, Ho.
        -- rewrite filter_app, Hf, access_event_filter_same.
           rewrite (take_S_r _ _ _ Ho), flat_map_app. simpl.
           now rewrite app_nil_r.
      * rewrite Nat.add_0_r.
        rewrite list_lookup_insert_ne, list_lookup_alter_ne by exact Hne.
        split; [exact Hr|]. split; [exact Hs|].
        rewrite filter_app, Hf, access_event_filter_other by exact Hne.
        apply app_nil_r.
    + apply Forall_app. split; [exact Htr|]. apply header_access_event_load.
  - (* no such thread *)
    split; try assumption.
    intros t p Hp. destruct (Hthr t p Hp) as (Hr & Hs & Hf).
    assert (t0 <> t) as Hne by (intros ->; rewrite Ht0 in Hr; discriminate Hr).
    rewrite steps_of_snoc. destruct (decide (t0 = t)); [contradiction|].
    rewrite Nat.add_0_r. auto.
Qed.

Lemma interleave_inv (progs : list (list op)) (sched : list nat) :
  forall (done : list nat) (c : config),
    reachable_inv progs done c ->
    reachable_inv progs (done ++ sched) (interleave c sched).
Proof.
  induction sched as [|t sched IH]; intros done c Hc; simpl.
  - now rewrite app_nil_r.
  - replace (done ++ t :: sched) with ((done ++ [t]) ++ sched)
      by now rewrite <- app_assoc.
    apply IH, step_inv, Hc.
Qed.

(** In a unit whose object is not [const] threads do interfere: the
    reader obtains a value it never obtains alone, and its load races with
    the other thread's assignment. *)
Example mutable_object_is_raced :
  let unit := [StaticConst (Object false AkUniqueID_name "X" 1)] in
  let c := interleave (init_in unit [[Read ["X"]]; [Write ["X"] 2]])
                      [1; 0]%nat in
  seen c !! 0%nat = Some [Some 2] /\
  (run unit [Read ["X"]]).2 = [Some 1] /\
  trace c = [Event_ 1 Modify ["X"]; Event_ 0 Load ["X"]] /\
  data_race (Event_ 1 Modify ["X"]) (Event_ 0 Load ["X"]).
Proof.
  repeat split; try reflexivity.
  - simpl. lia.
  - left. reflexivity.
Qed.

(** C8. Any number of threads may use the table at once.  Under every
    schedule the shared table is left as it was; each thread has advanced
    by the steps the schedule gave it and has obtained exactly the values
    its program obtains when it runs alone, up to where it stands, and all
    of them once the schedule has let it finish; the accesses it has made
    are exactly those of the steps it has taken; every access made is a
    load, and so no two accesses race. *)
Theorem C8_concurrent_reads (progs : list (list op)) (sched : list nat) :
  let c := interleave (init progs) sched in
  mem c = Wwise_IDs_h /\
  (forall (t : nat) (p : list op), progs !! t = Some p ->
     pool c !! t
     = Some (drop (Nat.min (steps_of t sched) (length p)) p) /\
     seen c !! t
     = Some (take (Nat.min (steps_of t sched) (length p))
                  (run Wwise_IDs_h p).2) /\
     filter (fun e => ev_thread e = t) (trace c)
     = flat_map (fun o => access_event t o (result_in Wwise_IDs_h o))
                (take (Nat.min (steps_of t sched) (length p)) p) /\
     ((length p <= steps_of t sched)%nat ->
      pool c !! t = Some [] /\ seen c !! t = Some (run Wwise_IDs_h p).2)) /\
  Forall (fun e => ev_access e = Load) (trace c) /\
  (forall e1 e2 : event,
     e1 ∈ trace c -> e2 ∈ trace c -> ~ data_race e1 e2).
Proof.
  intros c.
  destruct (interleave_inv progs sched [] (init progs) (init_inv progs))
    as [Hmem _ Hthr Htr].
  fold c in Hmem, Hthr, Htr. simpl in Hthr.
  split; [exact Hmem|]. split; [|split; [exact Htr|]].
  - intros t p Hp. destruct (Hthr t p Hp) as (Hr & Hs & Hf).
    split; [exact Hr|]. split; [exact Hs|]. split; [exact Hf|].
    intros Hall.
    replace (Nat.min (steps_of t sched) (length p)) with (length p)
      in Hr, Hs by lia.
    split.
    + now rewrite drop_all in Hr.
    + rewrite Hs. f_equal. apply take_ge.
      rewrite header_run. simpl. rewrite length_map. lia.
  - intros e1 e2 H1 H2 (_ & _ & [Hm|Hm]).
    + pose proof (proj1 (Forall_forall _ _) Htr e1 H1) as Hl.
      cbv beta in Hl. congruence.
    + pose proof (proj1 (Forall_forall _ _) Htr e2 H2) as Hl.
      cbv beta in Hl. congruence.
Qed.

Lemma C8_witness :
  let progs := [[Read ["AK"; "EVENTS"; "LEVEL_UP"];
                 Read ["AK"; "BUSSES"; "MASTER_AUDIO_BUS"]];
                [Write ["AK"; "EVENTS"; "LEVEL_UP"] 7;
                 Read ["AK"; "EVENTS"; "LEVEL_UP"]]] in
  let c := interleave (init progs) [1; 0; 1; 0]%nat in
  (pool c !! 0%nat = Some [] /\
   seen c !! 0%nat = Some [Some 2145291615; Some 3803692087]) /\
  seen c !! 1%nat = Some [None; Some 2145291615] /\
  ~ data_race (Event_ 1 Load ["AK"; "EVENTS"; "LEVEL_UP"])
              (Event_ 0 Load ["AK"; "EVENTS"; "LEVEL_UP"]).
Proof.
  intros progs c.
  pose proof (C8_concurrent_reads progs [1; 0; 1; 0]%nat) as (_ & Hthr & _ & Hrace).
  fold c in Hthr, Hrace.
  split; [|split].
  - apply (Hthr 0%nat _ eq_refl). vm_compute. lia.
  - exact (proj1 (proj2 (Hthr 1%nat _ eq_refl))).
  - apply Hrace; by_evaluation.
Defined.
